(** * sparselizard: the shape-function type registry and the laminar-flow
      Newton loop

    A shallow embedding of
    - [hierarchicalformfunction::gettypenumber] and
      [hierarchicalformfunction::gettypename] (src/unnamed/part_000), and
    - the driver [sparselizard()] of
      src/examples/nonlinear-laminarflow-step-2d/main.cpp,
    together with models, written from the specification, of the region,
    constraint and assembly operations the driver calls but whose code is in
    the library proper. *)

From Stdlib Require Import ZArith String Ascii List Lia Floats DecimalString.
From stdpp Require Import gmap strings list.

Set Warnings "-inexact-float".
Set Default Proof Using "Type".

Local Open Scope Z_scope.

(** ** Outcomes of a C++ call *)

(** A call either returns a value, or writes a text to [std::cout] and calls
    [abort()], or has undefined behaviour (signed overflow, [operator[]] out
    of range).  [OutOfFuel] is the model running out of loop fuel; it is
    not a behaviour of the program. *)
Inductive outcome (A : Type) : Type :=
| Returns (a : A)
| Aborts (console : string)
| Undefined
| OutOfFuel.

Arguments Returns {A} a.
Arguments Aborts {A} console.
Arguments Undefined {A}.
Arguments OutOfFuel {A}.

(** ** Machine integers *)

Definition INT_MIN : Z := - 2 ^ 31.
Definition INT_MAX : Z := 2 ^ 31 - 1.

(** The values of the C++ type [int]. *)
Definition is_int (x : Z) : Prop := INT_MIN <= x <= INT_MAX.

(** [std::endl]. *)
Definition endl : string := String (ascii_of_nat 10) EmptyString.

(** [std::cout << n] for an [int]. *)
Definition print_int (n : Z) : string := NilZero.string_of_int (Z.to_int n).

(** ** The type registry: hierarchicalformfunction (src/unnamed/part_000) *)

Module Registry.

Section Catalog.

(** Width of [size_t] in bits; the usual arithmetic conversions turn the
    [int] operand of a comparison with a [size_t] into a [size_t]. *)
Variable size_bits : Z.

(** The member [mytypenames] (a [std::vector<std::string>]); it is declared
    in hierarchicalformfunction.h, which is not among the sources, so the
    catalog is a parameter. *)
Variable mytypenames : list string.

(** Conversion of an [int] to [size_t]: reduction modulo [2 ^ size_bits]. *)
Definition to_size_t (x : Z) : Z := x mod 2 ^ size_bits.

(** [mytypenames.size()]. *)
Definition catalog_size : Z := Z.of_nat (length mytypenames).

(** [mytypenames[k]] for a [size_t] k: [None] is the undefined behaviour of
    an access out of range. *)
Definition at_index (k : Z) : option string :=
  if (0 <=? k) && (k <? catalog_size) then mytypenames !! Z.to_nat k else None.

Definition unknown_name_message (fftypename : string) : string :=
  "Error in 'hierarchicalformfunction' object: unknown type name '"
    +:+ fftypename +:+ "'" +:+ endl.

Definition unknown_number_message (fftypenumber : Z) : string :=
  "Error in 'hierarchicalformfunction' object: unknown type number "
    +:+ print_int fftypenumber +:+ endl.

(** The [for] loop of [gettypenumber], entered with loop variable [i]:
    the result is the value of [outtypenum] when the loop is left. *)
Fixpoint scan (fuel : nat) (fftypename : string) (i : Z) : outcome Z :=
  match fuel with
  | O => OutOfFuel
  | S fuel' =>
      if to_size_t i <? catalog_size then
        match at_index (to_size_t i) with
        | None => Undefined
        | Some s =>
            if String.eqb s fftypename then Returns i
            else if i <? INT_MAX then scan fuel' fftypename (i + 1)
            else Undefined
        end
      else Returns (-1)
  end.

Definition gettypenumber_fuel (fuel : nat) (fftypename : string) : outcome Z :=
  match scan fuel fftypename 0 with
  | Returns outtypenum =>
      if outtypenum =? -1 then Aborts (unknown_name_message fftypename)
      else Returns outtypenum
  | other => other
  end.

(** One loop test per catalog entry and a last one that fails. *)
Definition gettypenumber (fftypename : string) : outcome Z :=
  gettypenumber_fuel (S (length mytypenames)) fftypename.

Definition gettypename (fftypenumber : Z) : outcome string :=
  if catalog_size <=? to_size_t fftypenumber then
    Aborts (unknown_number_message fftypenumber)
  else
    match at_index (to_size_t fftypenumber) with
    | Some s => Returns s
    | None => Undefined
    end.

(** Position of the first catalog entry equal to [fftypename]. *)
Definition first_index (fftypename : string) (l : list string) : option nat :=
  fst <$> list_find (λ s, s = fftypename) l.

End Catalog.

End Registry.

Import Registry.

(** ** The region model *)

(** A mesh as the core sees it: region number to the set of its entities. *)
Abbreviation region_map := (gmap Z (gset Z)).

(** The number given to a composed region: one above every number in use. *)
Definition next_region (m : region_map) : Z :=
  1 + foldr Z.max 0 (elements (dom m)).

(** Modelled from the spec: [regionunion], whose code is not among the
    sources. "union(region-list) -> Region: new region whose entities are
    the set union of all operands"; a malformed composition (an operand that
    is not a region of the mesh) ends the process, here [None]. *)
Definition regionunion (operands : list Z) (m : region_map) : option (Z * region_map) :=
  sets ← mapM (λ r, m !! r) operands;
  Some (next_region m, <[next_region m := ⋃ sets]> m).

(** Modelled from the spec: [regionexclusion], whose code is not among the
    sources. "exclusion(base, subtrahend) -> Region: new region whose
    entities are base \ subtrahend". *)
Definition regionexclusion (base subtrahend : Z) (m : region_map) : option (Z * region_map) :=
  b ← m !! base;
  s ← m !! subtrahend;
  Some (next_region m, <[next_region m := b ∖ s]> m).

(** The entities of a region; a number that names no region has none. *)
Definition entities (m : region_map) (r : Z) : gset Z := default ∅ (m !! r).

(** ** Constraints of a field *)

Section Constraints.

(** Value expressions of a constraint. *)
Variable value : Type.

(** Modelled from the spec: [field::setconstraint], whose code is not among
    the sources. The constraints of a field are kept in declaration order,
    keyed by region: "Overwrites any prior constraint on that exact
    region." *)
Definition setconstraint (region : Z) (v : value)
    (declared : list (Z * value)) : list (Z * value) :=
  filter (λ c, c.1 ≠ region) declared ++ [(region, v)].

(** Modelled from the spec: the constraint in force on an entity.
    "Constraints on overlapping regions are applied in declaration order,
    last write wins per entity." *)
Definition constraint_at (m : region_map) (declared : list (Z * value))
    (x : Z) : option value :=
  foldl (λ acc c, if decide (x ∈ entities m c.1) then Some c.2 else acc)
        None declared.

End Constraints.

Arguments setconstraint {value} region v declared.
Arguments constraint_at {value} m declared x.

(** Modelled from the spec: [field::setorder], whose code is not among the
    sources: the interpolation order is kept per region. *)
Definition setorder (region order : Z) (orders : gmap Z Z) : gmap Z Z :=
  <[region := order]> orders.

(** ** Assembly of a formulation *)

(** A linear system: the entries of the sparse matrix and of the right-hand
    side, in double precision. *)
Abbreviation linear_system := (gmap (Z * Z) float * gmap Z float)%type.

(** The contribution of one mesh entity: entries of its local matrix and
    vector, already numbered with the global degrees of freedom. *)
Abbreviation contribution := (list (Z * Z * float) * list (Z * float))%type.

(** Modelled from the spec: the scatter-add of a contribution into the
    global matrix and right-hand side; its code is not among the sources.
    An entry that is absent counts as zero. *)
Definition add_at {K} `{Countable K} (k : K) (x : float) (a : gmap K float) : gmap K float :=
  <[k := (default 0 (a !! k) + x)%float]> a.

Definition scatter_add (c : contribution) (sys : linear_system) : linear_system :=
  (foldl (λ a e, add_at e.1 e.2 a) sys.1 c.1,
   foldl (λ b e, add_at e.1 e.2 b) sys.2 c.2).

Section Assembly.

(** What an integrand reads: the state of the fields. *)
Variable fieldstate : Type.

(** A term of a formulation: "{region, integrand-expression}"; the
    integrand is the pluggable payload that yields the contribution of an
    entity from the current state of the fields. *)
Record term := {
  term_region : Z;
  integrand : fieldstate → Z → contribution
}.

Definition assemble_term (m : region_map) (fs : fieldstate) (t : term)
    (sys : linear_system) : linear_system :=
  foldl (λ acc x, scatter_add (integrand t fs x) acc) sys
        (elements (entities m (term_region t))).

(** Modelled from the spec: [assemble()], whose code is not among the
    sources. "for every mesh entity in every term's region, evaluate the
    integrand ... producing a local element matrix/vector; scatter-add
    these into the global sparse matrix and right-hand-side vector"; the
    system is built from an empty one at each call, "each call is a pure
    function of current field state and must not accumulate stale
    contributions from a previous call". *)
Definition assemble (m : region_map) (terms : list term) (fs : fieldstate) : linear_system :=
  foldl (λ acc t, assemble_term m fs t acc) (∅, ∅) terms.

End Assembly.

Arguments term_region {fieldstate} t.
Arguments integrand {fieldstate} t fs x.
Arguments assemble_term {fieldstate} m fs t sys.
Arguments assemble {fieldstate} m terms fs.

(** ** The driver: sparselizard() of nonlinear-laminarflow-step-2d/main.cpp *)

(** The two value expressions the driver constrains with: none given (zero),
    and [array2x1(velocity*y*(hthin-y)/pow(hthin*0.5,2), 0)]. *)
Inductive expression : Type :=
| Zero
| InletProfile (velocity hthin : float).

Module Driver.

Section Collaborators.

(** The coefficients of the fields [v] and [p]. *)
Variable coefficients : Type.

(** The fields [v] and [p]: constraints and orders per region, and the
    current coefficients. *)
Record fields := {
  v_constraints : list (Z * expression);
  p_constraints : list (Z * expression);
  v_orders : gmap Z Z;
  p_orders : gmap Z Z;
  values : coefficients
}.

(** The state of the library between two statements of the driver: the
    mesh, the fields, and the global system of the latest assembly. *)
Record engine := {
  mesh : region_map;
  state : fields;
  system : linear_system
}.

(** External collaborators: the laminar-flow integrand (with [mu] and
    [rho]), the sparse linear solver that writes the solution to the
    fields, and the evaluator [norm(v).integrate(region, order)]. *)
Variable predefinedlaminarflow : float → float → fields → Z → contribution.
Variable linear_solve : linear_system → fields → coefficients.
Variable integrate_norm_v : gset Z → Z → coefficients → float.

Definition fluid : Z := 1.
Definition inlet : Z := 2.
Definition outlet : Z := 3.
Definition skin : Z := 4.
Definition hthin : float := 1e-3%float.
Definition mu : float := 8.9e-4%float.
Definition rho : float := 1000%float.

(** [formulation laminarflow] after the [+=] of line 48. *)
Definition laminarflow : list (term fields) :=
  [ {| term_region := fluid; integrand := predefinedlaminarflow mu rho |} ].

(** Lines 27 to 43: the wall, the two constraints and the two orders, on
    the mesh [mymesh] and the initial coefficients of the fields. *)
Definition setup (mymesh : region_map) (initial : coefficients) : option engine :=
  '(inout, m1) ← regionunion [inlet; outlet] mymesh;
  '(wall, m2) ← regionexclusion skin inout m1;
  Some {| mesh := m2;
          state := {| v_constraints := setconstraint wall Zero [];
                      p_constraints := setconstraint outlet Zero [];
                      v_orders := setorder fluid 2 ∅;
                      p_orders := setorder fluid 1 ∅;
                      values := initial |};
          system := (∅, ∅) |}.

(** [v.setconstraint(inlet, array2x1(...))] of line 61. *)
Definition set_inlet_velocity (velocity : float) (e : engine) : engine :=
  {| mesh := mesh e;
     state := {| v_constraints :=
                   setconstraint inlet (InletProfile velocity hthin)
                                 (v_constraints (state e));
                 p_constraints := p_constraints (state e);
                 v_orders := v_orders (state e);
                 p_orders := p_orders (state e);
                 values := values (state e) |};
     system := system e |}.

(** Modelled from the spec: the call of [assemble()] that [solve] starts
    with; its code is not among the sources. The system assembled is kept
    in the engine. *)
Definition generate (terms : list (term fields)) (e : engine) : engine :=
  {| mesh := mesh e; state := state e;
     system := assemble (mesh e) terms (state e) |}.

(** Modelled from the spec: [solve(formulation)], whose code is not among
    the sources: "the Weak-Formulation Assembler builds the current linear
    system from current field values; it is handed to the external
    linear-solver collaborator, whose result updates field values in
    place". *)
Definition solve (terms : list (term fields)) (e : engine) : engine :=
  let e' := generate terms e in
  {| mesh := mesh e';
     state := {| v_constraints := v_constraints (state e');
                 p_constraints := p_constraints (state e');
                 v_orders := v_orders (state e');
                 p_orders := p_orders (state e');
                 values := linear_solve (system e') (state e') |};
     system := system e' |}.

(** [norm(v).integrate(fluid,2)]. *)
Definition measure (e : engine) : float :=
  integrate_norm_v (entities (mesh e) fluid) 2 (values (state e)).

(** The locals of the loop and the library state. *)
Record loop_state := {
  index : Z;
  convergence : float;
  velocity : float;
  lib : engine
}.

(** Lines 56 and 57. *)
Definition ramp (velocity : float) : float :=
  if PrimFloat.ltb velocity 0.299 then (velocity + 0.008)%float else velocity.

(** Where the ramp comes to rest: [0.1] after 25 additions of [0.008] in
    double precision. *)
Definition velocity_target : float := 0.30000000000000016%float.

(** Line 69, from the measures before and after the solve. *)
Definition relative_change (before after : float) : float :=
  PrimFloat.abs ((after - before) / after).

(** The loop test of line 53. *)
Definition continues (s : loop_state) : bool :=
  PrimFloat.ltb 1e-10 (convergence s).

(** The convergence test in the words of the specification: "relative
    change |after-before|/|after| is compared against a fixed tolerance.
    Below tolerance -> converged". *)
Definition below_tolerance (s : loop_state) : bool :=
  PrimFloat.ltb (convergence s) 1e-10.

(** Lines 55 to 75: one pass through the body (the texts written to
    [std::cout] and the two files written are left out). *)
Definition body (s : loop_state) : loop_state :=
  let velocity' := ramp (velocity s) in
  let e1 := set_inlet_velocity velocity' (lib s) in
  let measuresol := measure e1 in
  let e2 := solve laminarflow e1 in
  {| index := index s + 1;
     convergence := relative_change measuresol (measure e2);
     velocity := velocity';
     lib := e2 |}.

(** The [while] loop; [index++] on [INT_MAX] is a signed overflow. *)
Fixpoint run (fuel : nat) (s : loop_state) : outcome loop_state :=
  match fuel with
  | O => OutOfFuel
  | S fuel' =>
      if continues s then
        if index s <? INT_MAX then run fuel' (body s) else Undefined
      else Returns s
  end.

(** Line 52. *)
Definition enter (e : engine) : loop_state :=
  {| index := 0; convergence := 1; velocity := 0.1; lib := e |}.

(** The state after [n] passes through the body. *)
Definition after_passes (n : nat) (e : engine) : loop_state :=
  Nat.iter n body (enter e).

End Collaborators.

End Driver.

Import Driver.

Arguments v_constraints {coefficients} _.
Arguments p_constraints {coefficients} _.
Arguments v_orders {coefficients} _.
Arguments p_orders {coefficients} _.
Arguments values {coefficients} _.
Arguments mesh {coefficients} _.
Arguments state {coefficients} _.
Arguments system {coefficients} _.
Arguments index {coefficients} _.
Arguments convergence {coefficients} _.
Arguments velocity {coefficients} _.
Arguments lib {coefficients} _.
Arguments continues {coefficients} _.
Arguments below_tolerance {coefficients} _.
Arguments set_inlet_velocity {coefficients} _ _.
Arguments generate {coefficients} _ _.
Arguments enter {coefficients} _.

(** The target of the ramp in the words of the specification: "ramped from
    0.1 to ~0.3 units of forcing in increments of 0.008 per step"; the
    driver itself names no target, only the threshold 0.299. *)
Definition nominal_target : float := 0.3%float.

(** ** The validation line of the driver *)

(** Lines 83 and 87: [flowrateout] is the opposite of the integral
    [(normal(outlet)*v).integrate(outlet, 4)], here [outflux], and the
    value written to [std::cout] is the truth value of
    [vnorm*flowrateout < 2.64489e-05 && vnorm*flowrateout > 2.64485e-05]. *)
Definition validation (vnorm outflux : float) : bool :=
  let flowrateout := (- outflux)%float in
  PrimFloat.ltb (vnorm * flowrateout) 2.64489e-05 &&
  PrimFloat.ltb 2.64485e-05 (vnorm * flowrateout).

(** Strictly positive and strictly negative doubles, on their
    specification. *)
Definition SFpositive (x : spec_float) : bool :=
  match x with
  | S754_finite false _ _ | S754_infinity false => true
  | _ => false
  end.

Definition SFnegative (x : spec_float) : bool :=
  match x with
  | S754_finite true _ _ | S754_infinity true => true
  | _ => false
  end.

(** ** Example data *)

(** An example catalog on a platform with a 64-bit [size_t]. *)
Definition example_catalog : list string :=
  ["h1"; "hcurl"; "one"; "x"; "y"; "z"]%string.

(** A mesh with two regions that share no entity. *)
Definition example_mesh : region_map :=
  <[1 := {[10; 11]}]> (<[2 := {[12]}]> ∅).

(** A channel: two fluid cells, an inlet edge, an outlet edge, and the skin
    made of these two and two wall edges. *)
Definition example_channel : region_map :=
  <[fluid := {[100; 101]}]> (<[inlet := {[20]}]> (<[outlet := {[30]}]>
    (<[skin := {[20; 30; 40; 41]}]> ∅))).

(** Collaborators over fields that hold one coefficient: an integrand that
    puts the coefficient on the diagonal, a solver that yields [after]
    whatever the system, and a norm that is the coefficient itself. *)
Definition example_integrand (mu rho : float) (fs : fields float) (x : Z) : contribution :=
  ([((x, x), values fs)], [(x, mu)]).

Definition example_solver (after : float) (sys : linear_system) (fs : fields float) : float :=
  after.

Definition example_norm (region : gset Z) (order : Z) (c : float) : float := c.

Definition example_engine (before : float) : engine float :=
  {| mesh := example_channel;
     state := {| v_constraints := []; p_constraints := [];
                 v_orders := ∅; p_orders := ∅; values := before |};
     system := (∅, ∅) |}.

(** The loop state after a first pass that measures [before] and then
    [after]. *)
Definition example_pass (before after : float) : loop_state float :=
  body float example_integrand (example_solver after) example_norm
       (enter (example_engine before)).

(** * Properties *)

(** ** The type registry *)

Section CatalogFacts.

Variable size_bits : Z.
Variable mytypenames : list string.

(** [size_t] is at least as wide as [int]. *)
Hypothesis size_t_wide : 32 <= size_bits.

(** Every catalog index is a value of [int], the type in which
    [gettypenumber] returns it. *)
Hypothesis catalog_fits_int : catalog_size mytypenames <= INT_MAX.

Local Abbreviation to_size_t := (to_size_t size_bits).
Local Abbreviation size := (catalog_size mytypenames).
Local Abbreviation at_index := (at_index mytypenames).
Local Abbreviation scan := (scan size_bits mytypenames).
Local Abbreviation gettypenumber_fuel := (gettypenumber_fuel size_bits mytypenames).
Local Abbreviation gettypenumber := (gettypenumber size_bits mytypenames).
Local Abbreviation gettypename := (gettypename size_bits mytypenames).

Lemma int_range_in_size_t : 2 ^ 32 <= 2 ^ size_bits.
Proof using size_t_wide. apply Z.pow_le_mono_r; lia. Qed.

Lemma to_size_t_nonneg (x : Z) : 0 <= x <= INT_MAX -> to_size_t x = x.
Proof using size_t_wide.
  intros Hx. unfold Registry.to_size_t. apply Z.mod_small.
  pose proof int_range_in_size_t. unfold INT_MAX in Hx. lia.
Qed.

Lemma to_size_t_negative (x : Z) :
  INT_MIN <= x < 0 -> to_size_t x = x + 2 ^ size_bits.
Proof using size_t_wide.
  intros Hx. unfold Registry.to_size_t.
  pose proof int_range_in_size_t. unfold INT_MIN in Hx.
  symmetry. apply (Z.mod_unique _ _ (-1)); lia.
Qed.

Lemma at_index_lookup (k : nat) :
  at_index (Z.of_nat k) = mytypenames !! k.
Proof.
  unfold Registry.at_index, catalog_size. rewrite Nat2Z.id.
  destruct (Z.of_nat k <? Z.of_nat (length mytypenames)) eqn:E.
  - replace (0 <=? Z.of_nat k) with true by (symmetry; apply Z.leb_le; lia). done.
  - rewrite andb_false_r. symmetry. apply lookup_ge_None. apply Z.ltb_ge in E. lia.
Qed.

(** The loop, entered at position [k], finds the first match at or after
    [k], and leaves [outtypenum] at [-1] when there is none. *)
Lemma scan_from (fftypename : string) (fuel k : nat) :
  (k <= length mytypenames)%nat ->
  (length mytypenames - k < fuel)%nat ->
  scan fuel fftypename (Z.of_nat k) =
    match first_index fftypename (drop k mytypenames) with
    | Some r => Returns (Z.of_nat (k + r))
    | None => Returns (-1)
    end.
Proof using size_t_wide catalog_fits_int.
  revert k. induction fuel as [|fuel IH]; intros k Hk Hfuel; [lia|].
  unfold catalog_size in catalog_fits_int. cbn [Registry.scan].
  rewrite to_size_t_nonneg by (unfold INT_MAX in *; lia).
  rewrite at_index_lookup. unfold catalog_size.
  destruct (Z.of_nat k <? Z.of_nat (length mytypenames)) eqn:E.
  - apply Z.ltb_lt in E.
    destruct (lookup_lt_is_Some_2 mytypenames k) as [s Hs]; [lia|].
    rewrite Hs, (drop_S _ _ _ Hs). unfold first_index. cbn [list_find].
    destruct (String.eqb_spec s fftypename) as [->|Hne].
    + rewrite decide_True by done. cbn. do 2 f_equal. lia.
    + rewrite decide_False by done.
      replace (Z.of_nat k <? INT_MAX) with true
        by (symmetry; apply Z.ltb_lt; unfold INT_MAX in *; lia).
      replace (Z.of_nat k + 1) with (Z.of_nat (S k)) by lia.
      rewrite IH by lia. unfold first_index.
      destruct (list_find _ (drop (S k) mytypenames)) as [[r x]|]; cbn; [|done].
      do 2 f_equal. lia.
  - apply Z.ltb_ge in E. rewrite drop_ge by lia. done.
Qed.

(** [gettypenumber] against the first matching position: with fuel for
    every loop test the model does not run out of it. *)
Lemma gettypenumber_fuel_first_index (fftypename : string) (fuel : nat) :
  (length mytypenames < fuel)%nat ->
  gettypenumber_fuel fuel fftypename =
    match first_index fftypename mytypenames with
    | Some r => Returns (Z.of_nat r)
    | None => Aborts (unknown_name_message fftypename)
    end.
Proof using size_t_wide catalog_fits_int.
  intros Hfuel. unfold Registry.gettypenumber_fuel.
  change 0 with (Z.of_nat 0).
  rewrite (scan_from fftypename fuel 0) by lia. rewrite drop_0.
  destruct (first_index fftypename mytypenames) as [r|]; cbn; [|done].
  replace (Z.of_nat r =? -1) with false by (symmetry; apply Z.eqb_neq; lia). done.
Qed.

Lemma gettypenumber_first_index (fftypename : string) :
  gettypenumber fftypename =
    match first_index fftypename mytypenames with
    | Some r => Returns (Z.of_nat r)
    | None => Aborts (unknown_name_message fftypename)
    end.
Proof using size_t_wide catalog_fits_int.
  apply gettypenumber_fuel_first_index. lia.
Qed.

Lemma first_index_Some (fftypename : string) (r : nat) :
  first_index fftypename mytypenames = Some r <->
  mytypenames !! r = Some fftypename /\
  (forall j, (j < r)%nat -> mytypenames !! j <> Some fftypename).
Proof.
  unfold first_index. split.
  - intros H. destruct (list_find _ mytypenames) as [[i x]|] eqn:E; [|done].
    cbn in H. injection H as ->. apply list_find_Some in E as (Hl & -> & Hleast).
    split; [done|]. intros j Hj Hjl. by apply (Hleast j fftypename).
  - intros [Hl Hleast].
    assert (list_find (λ s, s = fftypename) mytypenames = Some (r, fftypename)) as ->; [|done].
    apply list_find_Some. split_and!; [done..|].
    intros j y Hy Hj ->. by apply (Hleast j).
Qed.

Lemma first_index_None (fftypename : string) :
  first_index fftypename mytypenames = None <-> fftypename ∉ mytypenames.
Proof.
  unfold first_index. rewrite fmap_None, list_find_None, Forall_forall.
  split; [intros H Hin; by apply (H _ Hin)|intros H x Hx ->; by apply H].
Qed.

Lemma gettypename_in_range (k : nat) (s : string) :
  mytypenames !! k = Some s -> gettypename (Z.of_nat k) = Returns s.
Proof using size_t_wide catalog_fits_int.
  intros Hs. pose proof (lookup_lt_Some _ _ _ Hs) as Hlt.
  unfold Registry.gettypename, catalog_size in *.
  rewrite to_size_t_nonneg by (unfold INT_MAX in *; lia).
  replace (Z.of_nat (length mytypenames) <=? Z.of_nat k) with false
    by (symmetry; apply Z.leb_gt; lia).
  by rewrite at_index_lookup, Hs.
Qed.

(** C1. Round trip: for every index [i] of the catalog,
    [gettypenumber (gettypename i)] returns [i], and for every name of the
    catalog, [gettypename (gettypenumber name)] returns that name.  The
    catalog's names are unique (the invariant of the data model). *)
Theorem registry_round_trip :
  NoDup mytypenames ->
  (forall i, 0 <= i < size ->
     exists name, gettypename i = Returns name /\ gettypenumber name = Returns i) /\
  (forall name, name ∈ mytypenames ->
     exists i, gettypenumber name = Returns i /\ gettypename i = Returns name).
Proof using size_t_wide catalog_fits_int.
  intros Hnodup. split.
  - intros i Hi. unfold catalog_size in Hi.
    destruct (lookup_lt_is_Some_2 mytypenames (Z.to_nat i)) as [name Hname]; [lia|].
    exists name. rewrite <- (Z2Nat.id i) at 1 2 by lia.
    split; [by apply gettypename_in_range|].
    rewrite gettypenumber_first_index.
    assert (first_index name mytypenames = Some (Z.to_nat i)) as ->; [|done].
    apply first_index_Some. split; [done|]. intros j Hj Hjl.
    pose proof (NoDup_lookup _ _ _ _ Hnodup Hjl Hname). lia.
  - intros name Hin. rewrite gettypenumber_first_index.
    destruct (first_index name mytypenames) as [r|] eqn:E.
    + exists (Z.of_nat r). split; [done|].
      apply gettypename_in_range. by apply first_index_Some in E as [? _].
    + by apply first_index_None in E.
Qed.

(** C2. Both lookups fail explicitly: [gettypenumber] on a name that is not
    in the catalog, and [gettypename] on an index at or above the catalog
    size, print the message and abort; no value is returned. *)
Theorem registry_lookups_fail_explicitly :
  (forall name, name ∉ mytypenames ->
     gettypenumber name = Aborts (unknown_name_message name)) /\
  (forall i, is_int i -> size <= i ->
     gettypename i = Aborts (unknown_number_message i)).
Proof using size_t_wide catalog_fits_int.
  split.
  - intros name Hnot. rewrite gettypenumber_first_index.
    by apply first_index_None in Hnot as ->.
  - intros i [_ Hmax] Hi. unfold Registry.gettypename.
    rewrite to_size_t_nonneg by (unfold catalog_size in Hi; lia).
    by replace (size <=? i) with true by (symmetry; by apply Z.leb_le).
Qed.

(** C9. A negative index converts to a [size_t] at or above the catalog
    size, so [gettypename] aborts on it; the access [mytypenames[i]] on the
    path that returns is within bounds, so the call is never undefined. *)
Theorem gettypename_negative_index_aborts (i : Z) :
  is_int i ->
  (i < 0 -> size <= to_size_t i /\
            gettypename i = Aborts (unknown_number_message i)) /\
  gettypename i <> Undefined /\
  (forall s, gettypename i = Returns s ->
     0 <= i < size /\ mytypenames !! Z.to_nat i = Some s).
Proof using size_t_wide catalog_fits_int.
  intros [Hmin Hmax].
  assert (i < 0 -> size <= to_size_t i) as Hneg.
  { intros Hi. rewrite to_size_t_negative by lia.
    pose proof int_range_in_size_t. unfold INT_MIN, INT_MAX in *. lia. }
  unfold Registry.gettypename. split_and!.
  - intros Hi. split; [by apply Hneg|].
    by replace (size <=? to_size_t i) with true
      by (symmetry; apply Z.leb_le; by apply Hneg).
  - destruct (size <=? to_size_t i) eqn:E; [done|]. apply Z.leb_gt in E.
    assert (0 <= i) as Hi by lia. rewrite to_size_t_nonneg in * by lia.
    rewrite <- (Z2Nat.id i) by lia. rewrite at_index_lookup.
    destruct (lookup_lt_is_Some_2 mytypenames (Z.to_nat i)) as [s ->]; [|done].
    unfold catalog_size in E. lia.
  - intros s. destruct (size <=? to_size_t i) eqn:E; [done|]. apply Z.leb_gt in E.
    assert (0 <= i) as Hi by lia. rewrite to_size_t_nonneg in * by lia.
    rewrite <- (Z2Nat.id i) at 1 by lia. rewrite at_index_lookup.
    destruct (mytypenames !! Z.to_nat i) as [s'|]; [|done].
    intros [= ->]. split; [lia|done].
Qed.

(** C10. When [gettypenumber] returns [r], [r] is a catalog index, the
    entry at [r] is the queried name, no smaller index holds that name,
    and with unique names no other index holds it. *)
Theorem gettypenumber_returns_first_match (name : string) (r : Z) :
  gettypenumber name = Returns r ->
  0 <= r < size /\
  mytypenames !! Z.to_nat r = Some name /\
  (forall j, 0 <= j < r -> mytypenames !! Z.to_nat j <> Some name) /\
  (NoDup mytypenames ->
   forall j, mytypenames !! j = Some name -> Z.of_nat j = r).
Proof using size_t_wide catalog_fits_int.
  rewrite gettypenumber_first_index.
  destruct (first_index name mytypenames) as [k|] eqn:E; [|done].
  intros [= <-]. apply first_index_Some in E as [Hk Hleast].
  pose proof (lookup_lt_Some _ _ _ Hk) as Hlt. rewrite Nat2Z.id.
  unfold catalog_size. split_and!; [lia|lia|done|..].
  - intros j Hj. apply Hleast. lia.
  - intros Hnodup j Hj. f_equal. by apply (NoDup_lookup _ _ _ _ Hnodup Hj Hk).
Qed.

End CatalogFacts.

Lemma example_catalog_NoDup : NoDup example_catalog.
Proof. apply (bool_decide_unpack _). vm_compute. exact I. Defined.

Example gettypenumber_hcurl :
  gettypenumber 64 example_catalog "hcurl" = Returns 1.
Proof. reflexivity. Qed.

Example gettypenumber_h2 :
  gettypenumber 64 example_catalog "h2" =
    Aborts ("Error in 'hierarchicalformfunction' object: unknown type name 'h2'"
              +:+ endl).
Proof. reflexivity. Qed.

Example gettypename_minus_one :
  gettypename 64 example_catalog (-1) =
    Aborts ("Error in 'hierarchicalformfunction' object: unknown type number -1"
              +:+ endl).
Proof. reflexivity. Qed.

(** Without unique names the first half of the round trip fails: the scan
    stops at the first of two equal names. *)
Example round_trip_needs_unique_names :
  gettypename 64 ["h1"; "h1"]%string 1 = Returns "h1"%string ∧
  gettypenumber 64 ["h1"; "h1"]%string "h1" = Returns 0.
Proof. split; reflexivity. Qed.

Lemma registry_round_trip_witness :
  (exists name, gettypename 64 example_catalog 1 = Returns name /\
                gettypenumber 64 example_catalog name = Returns 1) /\
  (exists i, gettypenumber 64 example_catalog "one" = Returns i /\
             gettypename 64 example_catalog i = Returns "one"%string).
Proof.
  destruct (registry_round_trip 64 example_catalog) as [Hnum Hname].
  - lia.
  - vm_compute. discriminate.
  - exact example_catalog_NoDup.
  - split.
    + apply Hnum. vm_compute. split; [discriminate|reflexivity].
    + apply Hname. apply (bool_decide_unpack _). vm_compute. exact I.
Defined.

Lemma registry_lookups_fail_explicitly_witness :
  gettypenumber 64 example_catalog "h2" = Aborts (unknown_name_message "h2") /\
  gettypename 64 example_catalog 6 = Aborts (unknown_number_message 6).
Proof.
  destruct (registry_lookups_fail_explicitly 64 example_catalog) as [Hname Hnum].
  - lia.
  - vm_compute. discriminate.
  - split.
    + apply Hname. apply (bool_decide_unpack _). vm_compute. exact I.
    + apply Hnum; vm_compute; [split|]; discriminate.
Defined.

Lemma gettypename_negative_index_aborts_witness :
  gettypename 64 example_catalog (-1) = Aborts (unknown_number_message (-1)).
Proof.
  destruct (gettypename_negative_index_aborts 64 example_catalog) with (i := -1)
    as [Hneg _].
  - lia.
  - vm_compute. discriminate.
  - vm_compute. split; discriminate.
  - apply Hneg. lia.
Defined.

Lemma gettypenumber_returns_first_match_witness :
  0 <= 1 < catalog_size example_catalog /\
  example_catalog !! Z.to_nat 1 = Some "hcurl"%string.
Proof.
  destruct (gettypenumber_returns_first_match 64 example_catalog) with
    (name := "hcurl"%string) (r := 1) as (Hr & Hat & _).
  - lia.
  - vm_compute. discriminate.
  - vm_compute. reflexivity.
  - split; [exact Hr|exact Hat].
Defined.

(** ** The region model *)

Lemma foldr_max_bound (l : list Z) (k : Z) : k ∈ l → k <= foldr Z.max 0 l.
Proof.
  induction l as [|y l IH]; [by intros ?%elem_of_nil|].
  intros [->|Hk]%elem_of_cons; cbn; [|specialize (IH Hk)]; lia.
Qed.

Lemma next_region_fresh (m : region_map) : m !! next_region m = None.
Proof.
  apply not_elem_of_dom. intros Hin%elem_of_elements%foldr_max_bound.
  unfold next_region in Hin. lia.
Qed.

Lemma next_region_other (m : region_map) (k : Z) (s : gset Z) :
  is_Some (m !! k) → <[next_region m := s]> m !! k = m !! k.
Proof.
  intros Hk. apply lookup_insert_ne. intros Heq.
  rewrite <- Heq, next_region_fresh in Hk. by destruct Hk.
Qed.

Lemma regionunion_pair (m : region_map) (A B : Z) (a b : gset Z) :
  m !! A = Some a → m !! B = Some b →
  regionunion [A; B] m = Some (next_region m, <[next_region m := a ∪ b]> m).
Proof.
  intros HA HB. unfold regionunion. cbn. rewrite HA, HB. cbn.
  by rewrite (right_id_L ∅ (∪) b).
Qed.

Lemma regionexclusion_pair (m : region_map) (A B : Z) (a b : gset Z) :
  m !! A = Some a → m !! B = Some b →
  regionexclusion A B m = Some (next_region m, <[next_region m := a ∖ b]> m).
Proof. intros HA HB. unfold regionexclusion. by rewrite HA, HB. Qed.

Lemma union_twice_minus (a : gset Z) : (a ∪ a) ∖ a = ∅.
Proof.
  apply set_eq. intros y.
  rewrite elem_of_difference, elem_of_union, elem_of_empty. tauto.
Qed.

(** This equality needs no assumption on [a] and [b]. *)
Lemma union_with_difference (a b : gset Z) : a ∪ b ∖ a = a ∪ b.
Proof.
  apply set_eq. intros y.
  rewrite !elem_of_union, elem_of_difference.
  destruct (decide (y ∈ a)); tauto.
Qed.

(** Neither operation touches a region that exists, and the region made is
    a new one. *)
Lemma regionunion_preserves (operands : list Z) (m m' : region_map) (r : Z) :
  regionunion operands m = Some (r, m') →
  m !! r = None ∧ is_Some (m' !! r) ∧ ∀ k, is_Some (m !! k) → m' !! k = m !! k.
Proof.
  unfold regionunion. destruct (mapM _ operands) as [sets|]; [|done].
  cbn. intros [= <- <-]. split_and!.
  - apply next_region_fresh.
  - rewrite lookup_insert_eq. by eexists.
  - intros k. apply next_region_other.
Qed.

Lemma regionexclusion_preserves (base subtrahend : Z) (m m' : region_map) (r : Z) :
  regionexclusion base subtrahend m = Some (r, m') →
  m !! r = None ∧ is_Some (m' !! r) ∧ ∀ k, is_Some (m !! k) → m' !! k = m !! k.
Proof.
  unfold regionexclusion.
  destruct (m !! base) as [b|]; [|done]. destruct (m !! subtrahend) as [s|]; [|done].
  cbn. intros [= <- <-]. split_and!.
  - apply next_region_fresh.
  - rewrite lookup_insert_eq. by eexists.
  - intros k. apply next_region_other.
Qed.

(** C7. Region algebra, for regions [A] and [B] of the mesh:
    [exclusion(union(A,A), A)] has no entity; when [A] and [B] share no
    entity, [union(A, exclusion(B,A))] has the entities of [union(A,B)];
    and a union or an exclusion makes a new region and leaves every region
    that exists, its operands among them, as it was. *)
Theorem region_algebra (m : region_map) (A B : Z) (a b : gset Z) :
  m !! A = Some a → m !! B = Some b →
  (∃ u m1 e m2,
     regionunion [A; A] m = Some (u, m1) ∧
     regionexclusion u A m1 = Some (e, m2) ∧
     m2 !! e = Some ∅) ∧
  (a ## b →
   ∃ e m1 u1 m2 u2 m3 s,
     regionexclusion B A m = Some (e, m1) ∧
     regionunion [A; e] m1 = Some (u1, m2) ∧
     regionunion [A; B] m = Some (u2, m3) ∧
     m2 !! u1 = Some s ∧ m3 !! u2 = Some s) ∧
  (∀ operands r m',
     regionunion operands m = Some (r, m') →
     m !! r = None ∧ is_Some (m' !! r) ∧ m' !! A = Some a ∧ m' !! B = Some b ∧
     ∀ k, is_Some (m !! k) → m' !! k = m !! k) ∧
  (∀ base subtrahend r m',
     regionexclusion base subtrahend m = Some (r, m') →
     m !! r = None ∧ is_Some (m' !! r) ∧ m' !! A = Some a ∧ m' !! B = Some b ∧
     ∀ k, is_Some (m !! k) → m' !! k = m !! k).
Proof.
  intros HA HB. split_and!.
  - set (m1 := <[next_region m := a ∪ a]> m).
    assert (m1 !! A = Some a) as HA1.
    { unfold m1. rewrite next_region_other by (by eexists). done. }
    exists (next_region m), m1, (next_region m1), (<[next_region m1 := (a ∪ a) ∖ a]> m1).
    split_and!.
    + by apply regionunion_pair.
    + apply regionexclusion_pair; [|done]. unfold m1. by rewrite lookup_insert_eq.
    + rewrite lookup_insert_eq. f_equal. apply union_twice_minus.
  - intros Hdisj. set (m1 := <[next_region m := b ∖ a]> m).
    assert (m1 !! A = Some a) as HA1.
    { unfold m1. rewrite next_region_other by (by eexists). done. }
    exists (next_region m), m1, (next_region m1),
      (<[next_region m1 := a ∪ b ∖ a]> m1), (next_region m),
      (<[next_region m := a ∪ b]> m), (a ∪ b).
    split_and!.
    + by apply regionexclusion_pair.
    + apply regionunion_pair; [done|]. unfold m1. by rewrite lookup_insert_eq.
    + by apply regionunion_pair.
    + rewrite lookup_insert_eq. f_equal. apply union_with_difference.
    + by rewrite lookup_insert_eq.
  - intros operands r m' (Hnew & Hr & Hold)%regionunion_preserves.
    split_and!; [done|done|..|done].
    + rewrite Hold by (by eexists). done.
    + rewrite Hold by (by eexists). done.
  - intros base subtrahend r m' (Hnew & Hr & Hold)%regionexclusion_preserves.
    split_and!; [done|done|..|done].
    + rewrite Hold by (by eexists). done.
    + rewrite Hold by (by eexists). done.
Qed.

Lemma region_algebra_witness :
  (∃ u m1 e m2,
     regionunion [1; 1] example_mesh = Some (u, m1) ∧
     regionexclusion u 1 m1 = Some (e, m2) ∧
     m2 !! e = Some ∅) ∧
  (∃ e m1 u1 m2 u2 m3 s,
     regionexclusion 2 1 example_mesh = Some (e, m1) ∧
     regionunion [1; e] m1 = Some (u1, m2) ∧
     regionunion [1; 2] example_mesh = Some (u2, m3) ∧
     m2 !! u1 = Some s ∧ m3 !! u2 = Some s).
Proof.
  destruct (region_algebra example_mesh 1 2 {[10; 11]} {[12]}) as (H1 & H2 & _).
  - vm_compute. reflexivity.
  - vm_compute. reflexivity.
  - split; [exact H1|]. apply H2.
    apply (bool_decide_unpack _). vm_compute. exact I.
Defined.

(** ** Constraints of a field *)

Section ConstraintFacts.

Context {value : Type}.
Implicit Types (declared : list (Z * value)) (m : region_map).

Lemma constraint_at_snoc m declared (r : Z) (v : value) (x : Z) :
  constraint_at m (declared ++ [(r, v)]) x =
    if decide (x ∈ entities m r) then Some v else constraint_at m declared x.
Proof. unfold constraint_at. by rewrite foldl_app. Qed.

Lemma setconstraint_other declared (r r' : Z) (v v' : value) :
  r ≠ r' →
  setconstraint r' v' (setconstraint r v declared) =
    filter (λ c, c.1 ≠ r') (filter (λ c, c.1 ≠ r) declared) ++ [(r, v); (r', v')].
Proof.
  intros Hne. unfold setconstraint. rewrite filter_app, filter_cons_True by done.
  by rewrite filter_nil, <- (assoc_L (++)).
Qed.

Lemma setconstraint_same declared (r : Z) (v v' : value) :
  setconstraint r v' (setconstraint r v declared) = setconstraint r v' declared.
Proof.
  unfold setconstraint. rewrite filter_app, filter_cons_False by (cbn; tauto).
  rewrite filter_nil, (right_id_L [] (++)). f_equal.
  induction declared as [|c l IH]; [done|].
  destruct (decide (c.1 = r)) as [Heq|Hne].
  - by rewrite filter_cons_False by tauto.
  - rewrite (filter_cons_True _ c l) by done. rewrite filter_cons_True by done.
    by rewrite IH.
Qed.

(** C6. Last write wins per entity: after a constraint on [R1] and then one
    on [R2], an entity of [R2] carries the value given for [R2] and an
    entity of [R1] outside [R2] the value given for [R1]; a constraint set
    again on the same region replaces the one before. *)
Theorem constraint_last_write_wins m declared (R1 R2 : Z) (v1 v2 : value) (x : Z) :
  (x ∈ entities m R2 →
   constraint_at m (setconstraint R2 v2 (setconstraint R1 v1 declared)) x = Some v2) ∧
  (x ∈ entities m R1 ∖ entities m R2 →
   constraint_at m (setconstraint R2 v2 (setconstraint R1 v1 declared)) x = Some v1) ∧
  setconstraint R1 v2 (setconstraint R1 v1 declared) = setconstraint R1 v2 declared ∧
  (x ∈ entities m R1 →
   constraint_at m (setconstraint R1 v2 (setconstraint R1 v1 declared)) x = Some v2).
Proof.
  split_and!.
  - intros Hx. unfold setconstraint at 1. rewrite constraint_at_snoc.
    by rewrite decide_True.
  - intros [Hx1 Hx2]%elem_of_difference.
    assert (R1 ≠ R2) as Hne by (by intros ->).
    rewrite setconstraint_other by done.
    change [(R1, v1); (R2, v2)] with ([(R1, v1)] ++ [(R2, v2)]).
    rewrite (assoc_L (++)), !constraint_at_snoc.
    by rewrite decide_False, decide_True.
  - apply setconstraint_same.
  - intros Hx. unfold setconstraint at 1. rewrite constraint_at_snoc.
    by rewrite decide_True.
Qed.

End ConstraintFacts.

Lemma constraint_last_write_wins_witness :
  constraint_at (<[3 := {[11; 12]}]> example_mesh)
    (setconstraint 3 5%nat (setconstraint 1 7%nat [])) 11 = Some 5%nat ∧
  constraint_at (<[3 := {[11; 12]}]> example_mesh)
    (setconstraint 3 5%nat (setconstraint 1 7%nat [])) 10 = Some 7%nat.
Proof.
  split.
  - apply (constraint_last_write_wins (<[3 := {[11; 12]}]> example_mesh) [] 1 3 7%nat 5%nat 11).
    apply (bool_decide_unpack _). vm_compute. exact I.
  - apply (constraint_last_write_wins (<[3 := {[11; 12]}]> example_mesh) [] 1 3 7%nat 5%nat 10).
    apply (bool_decide_unpack _). vm_compute. exact I.
Defined.

(** ** Comparison of doubles *)

Lemma SFcompare_swap (x y : spec_float) :
  SFcompare y x = CompOpp <$> SFcompare x y.
Proof.
  destruct x as [sx|sx| |sx mx ex], y as [sy|sy| |sy my ey]; cbn;
    try done; try (by destruct sx); try (by destruct sy);
    try (by destruct sx, sy).
  rewrite (Z.compare_antisym ex ey), !Pos.compare_cont_spec. cbn.
  rewrite (Pos.compare_antisym mx my).
  destruct sx, sy; try done;
    destruct (ex ?= ey); cbn; try done; by destruct (mx ?= my)%positive.
Qed.

Lemma SFcompare_None (x y : spec_float) :
  SFcompare x y = None ↔ x = S754_nan ∨ y = S754_nan.
Proof.
  destruct x as [sx|sx| |sx mx ex], y as [sy|sy| |sy my ey]; cbn;
    split; try done; try (by left); try (by right); by intros [?|?].
Qed.

Lemma is_nan_Prim2SF (x : float) :
  PrimFloat.is_nan x = true ↔ Prim2SF x = S754_nan.
Proof.
  unfold PrimFloat.is_nan. rewrite FloatAxioms.eqb_spec. unfold SFeqb.
  destruct (Prim2SF x) as [sx|sx| |sx mx ex]; cbn; try (split; done).
  - by destruct sx.
  - rewrite Z.compare_refl, Pos.compare_cont_refl. by destruct sx.
Qed.

(** [t < x] is false exactly when [x <= t] or [x] is not a number, for a
    number [t]. *)
Lemma ltb_false_iff (t x : float) :
  PrimFloat.is_nan t = false →
  PrimFloat.ltb t x = false ↔
    PrimFloat.leb x t = true ∨ PrimFloat.is_nan x = true.
Proof.
  intros Ht. rewrite FloatAxioms.ltb_spec, FloatAxioms.leb_spec, is_nan_Prim2SF. unfold SFltb, SFleb.
  rewrite (SFcompare_swap (Prim2SF t) (Prim2SF x)).
  destruct (SFcompare (Prim2SF t) (Prim2SF x)) as [[]|] eqn:E; cbn.
  - split; [by left|done].
  - split; [done|]. intros [?|Hx]; [done|].
    assert (SFcompare (Prim2SF t) (Prim2SF x) = None) as HN
      by (apply SFcompare_None; by right).
    by rewrite HN in E.
  - split; [by left|done].
  - split; [intros _; right|done].
    apply SFcompare_None in E as [E|E]; [|done].
    apply is_nan_Prim2SF in E. by rewrite E in Ht.
Qed.

(** ** The ramp of the inlet velocity *)

Lemma velocity_target_reached : Nat.iter 25 ramp 0.1%float = velocity_target.
Proof. vm_compute. reflexivity. Qed.

Lemma ramp_rests (n : nat) :
  (25 ≤ n)%nat → Nat.iter n ramp 0.1%float = velocity_target.
Proof.
  induction 1 as [|n _ IH]; [apply velocity_target_reached|].
  rewrite Nat.iter_succ, IH. vm_compute. reflexivity.
Qed.

(** Below the 25th pass the velocity is under the threshold, grows with the
    pass and stays under the target. *)
Lemma ramp_rises (n : nat) :
  (n < 25)%nat →
  PrimFloat.ltb (Nat.iter n ramp 0.1%float) 0.299 = true ∧
  PrimFloat.leb (Nat.iter n ramp 0.1%float) (Nat.iter (S n) ramp 0.1%float) = true ∧
  PrimFloat.leb (Nat.iter n ramp 0.1%float) velocity_target = true.
Proof.
  intros Hn. do 25 (destruct n as [|n]; [vm_compute; done|]). lia.
Qed.

(** Below the 25th pass the velocity is under the nominal target. *)
Lemma ramp_near_nominal_target (n : nat) :
  (n < 25)%nat →
  PrimFloat.ltb (Nat.iter n ramp 0.1%float - nominal_target) 2e-16 = true.
Proof.
  intros Hn. do 25 (destruct n as [|n]; [vm_compute; done|]). lia.
Qed.

(** ** The Newton loop *)

Section DriverFacts.

Variable coefficients : Type.
Variable predefinedlaminarflow : float → float → fields coefficients → Z → contribution.
Variable linear_solve : linear_system → fields coefficients → coefficients.
Variable integrate_norm_v : gset Z → Z → coefficients → float.

Local Abbreviation laminarflow := (laminarflow coefficients predefinedlaminarflow).
Local Abbreviation solve := (solve coefficients linear_solve).
Local Abbreviation measure := (measure coefficients integrate_norm_v).
Local Abbreviation body :=
  (body coefficients predefinedlaminarflow linear_solve integrate_norm_v).
Local Abbreviation run :=
  (run coefficients predefinedlaminarflow linear_solve integrate_norm_v).
Local Abbreviation after_passes :=
  (after_passes coefficients predefinedlaminarflow linear_solve integrate_norm_v).

Implicit Types (e : engine coefficients) (s : loop_state coefficients).

Lemma after_passes_S (n : nat) e :
  after_passes (S n) e = body (after_passes n e).
Proof. done. Qed.

Lemma velocity_after_passes (n : nat) e :
  velocity (after_passes n e) = Nat.iter n ramp 0.1%float.
Proof.
  induction n as [|n IH]; [done|].
  rewrite after_passes_S, Nat.iter_succ, <- IH. done.
Qed.

(** C5 (amended). The ramp has a threshold and no clamp: each pass advances
    the velocity before the inlet constraint is set and the system
    assembled; the velocity grows by 0.008 while it is under 0.299 and is
    left as it is once it is not; it never decreases from one pass to the
    next; it is under 0.299 before the 25th pass and rests from the 25th
    pass on at 0.30000000000000016, which it never exceeds and which is
    above the nominal target 0.3 by less than 2e-16. *)
Theorem ramp_steps_then_holds (n : nat) e :
  let s := after_passes n e in
  let s' := after_passes (S n) e in
  velocity s' = ramp (velocity s) ∧
  lib s' = solve laminarflow (set_inlet_velocity (velocity s') (lib s)) ∧
  (PrimFloat.ltb (velocity s) 0.299 = true →
   velocity s' = (velocity s + 0.008)%float) ∧
  (PrimFloat.ltb (velocity s) 0.299 = false → velocity s' = velocity s) ∧
  PrimFloat.leb (velocity s) (velocity s') = true ∧
  ((n < 25)%nat → PrimFloat.ltb (velocity s) 0.299 = true) ∧
  ((25 ≤ n)%nat → velocity s = velocity_target) ∧
  PrimFloat.leb (velocity s) velocity_target = true ∧
  PrimFloat.ltb (velocity s - nominal_target) 2e-16 = true ∧
  PrimFloat.ltb nominal_target velocity_target = true.
Proof.
  cbn zeta. rewrite after_passes_S. split_and!; [done|done|..].
  - cbn. unfold ramp. by intros ->.
  - cbn. unfold ramp. by intros ->.
  - rewrite <- after_passes_S, !velocity_after_passes.
    destruct (decide (n < 25)%nat) as [Hn|Hn].
    + by destruct (ramp_rises n Hn) as (_ & -> & _).
    + rewrite !ramp_rests by lia. by vm_compute.
  - intros Hn. rewrite velocity_after_passes. by destruct (ramp_rises n Hn).
  - intros Hn. rewrite velocity_after_passes. by apply ramp_rests.
  - rewrite velocity_after_passes.
    destruct (decide (n < 25)%nat) as [Hn|Hn].
    + by destruct (ramp_rises n Hn) as (_ & _ & ->).
    + rewrite !ramp_rests by lia. by vm_compute.
  - rewrite velocity_after_passes.
    destruct (decide (n < 25)%nat) as [Hn|Hn].
    + by apply ramp_near_nominal_target.
    + rewrite !ramp_rests by lia. by vm_compute.
  - by vm_compute.
Qed.

(** Lines 37 and 61: the constraint on the inlet, set again at each pass,
    replaces the one of the pass before; the constraint on the wall stays. *)
Lemma v_constraints_after_passes (n : nat) e (wall : Z) :
  wall ≠ inlet →
  v_constraints (state e) = [(wall, Zero)] →
  v_constraints (state (lib (after_passes (S n) e))) =
    [(wall, Zero); (inlet, InletProfile (velocity (after_passes (S n) e)) hthin)].
Proof.
  intros Hwall He. induction n as [|n IH].
  - cbn. rewrite He. unfold setconstraint.
    by rewrite filter_cons_True, filter_nil by done.
  - rewrite (after_passes_S (S n)). unfold Driver.body at 1.
    cbn [lib velocity Driver.solve generate set_inlet_velocity state v_constraints].
    rewrite IH. unfold setconstraint.
    rewrite filter_cons_True by done.
    by rewrite filter_cons_False, filter_nil by (cbn; tauto).
Qed.

(** As long as the test holds the loop goes on: [n] passes use [n] units of
    fuel. *)
Lemma run_passes (n fuel : nat) s :
  (∀ k, (k < n)%nat → continues (Nat.iter k body s) = true) →
  index s + Z.of_nat n <= INT_MAX →
  run (n + fuel) s = run fuel (Nat.iter n body s).
Proof.
  revert s. induction n as [|n IH]; intros s Hgo Hindex; [done|].
  cbn [Nat.add Driver.run].
  assert (continues s = true) as -> by (apply (Hgo 0%nat); lia).
  replace (index s <? INT_MAX) with true by (symmetry; apply Z.ltb_lt; lia).
  rewrite IH.
  - by rewrite Nat.iter_succ_r.
  - intros k Hk. rewrite <- Nat.iter_succ_r. apply Hgo. lia.
  - unfold Driver.body. cbn [index]. lia.
Qed.

Lemma tolerance_is_a_number : PrimFloat.is_nan 1e-10 = false.
Proof. by vm_compute. Qed.

(** C4 (amended). The loop makes a first pass; a pass sets [convergence] to
    the relative change of the measure across the solve; the loop is left,
    with the state of that pass, exactly when the relative change is not
    above [1e-10], that is when it is at most [1e-10] or is not a number;
    while it is above [1e-10] the loop makes another pass; so the loop
    returns the state of the first pass whose relative change is not above
    [1e-10]. *)
Theorem loop_left_when_change_not_above_tolerance (fuel : nat) s :
  let e1 := set_inlet_velocity (ramp (velocity s)) (lib s) in
  let s' := body s in
  continues (enter (lib s)) = true ∧
  convergence s' = relative_change (measure e1) (measure (solve laminarflow e1)) ∧
  (continues s' = false ↔
     PrimFloat.leb (convergence s') 1e-10 = true ∨
     PrimFloat.is_nan (convergence s') = true) ∧
  (continues s' = false → run (S fuel) s' = Returns s') ∧
  (continues s' = true → index s' < INT_MAX →
   run (S fuel) s' = run fuel (body s')) ∧
  (∀ n e,
     (∀ k, (k < n)%nat → continues (after_passes k e) = true) →
     continues (after_passes n e) = false →
     Z.of_nat n <= INT_MAX →
     run (n + S fuel) (enter e) = Returns (after_passes n e)).
Proof.
  cbn zeta. split_and!.
  - by vm_compute.
  - done.
  - unfold continues. apply ltb_false_iff, tolerance_is_a_number.
  - intros Hc. cbn [Driver.run]. by rewrite Hc.
  - intros Hc Hi. cbn [Driver.run]. rewrite Hc.
    by replace (index (body s) <? INT_MAX) with true
      by (symmetry; by apply Z.ltb_lt).
  - intros n e Hgo Hstop Hn. rewrite run_passes; [|done|by cbn].
    cbn [Driver.run]. unfold Driver.after_passes in Hstop. by rewrite Hstop.
Qed.

End DriverFacts.

(** The wall of line 27 is the skin without the inlet and the outlet, and
    the four regions of the mesh are as before. *)
Lemma setup_wall (coefficients : Type) (mymesh : region_map)
    (initial : coefficients) (i o k : gset Z) :
  mymesh !! inlet = Some i → mymesh !! outlet = Some o → mymesh !! skin = Some k →
  ∃ e wall,
    setup coefficients mymesh initial = Some e ∧
    v_constraints (state e) = [(wall, Zero)] ∧
    mymesh !! wall = None ∧
    mesh e !! wall = Some (k ∖ (i ∪ o)) ∧
    ∀ r, is_Some (mymesh !! r) → mesh e !! r = mymesh !! r.
Proof.
  intros Hi Ho Hk. unfold setup.
  rewrite (regionunion_pair mymesh inlet outlet i o Hi Ho). cbn.
  set (m1 := <[next_region mymesh := i ∪ o]> mymesh).
  assert (m1 !! skin = Some k) as Hk1.
  { unfold m1. rewrite next_region_other by (by eexists). done. }
  assert (m1 !! next_region mymesh = Some (i ∪ o)) as Hio
    by (unfold m1; by rewrite lookup_insert_eq).
  rewrite (regionexclusion_pair m1 skin (next_region mymesh) k (i ∪ o) Hk1 Hio).
  cbn. eexists _, (next_region m1). split_and!; [done|done|..].
  - destruct (mymesh !! next_region m1) eqn:E; [|done].
    assert (m1 !! next_region m1 = mymesh !! next_region m1) as Hg
      by (apply next_region_other; rewrite E; by eexists).
    by rewrite next_region_fresh, E in Hg.
  - cbn. by rewrite lookup_insert_eq.
  - intros r Hr. cbn.
    assert (m1 !! r = mymesh !! r) as Hr1 by (by apply next_region_other).
    rewrite next_region_other by (by rewrite Hr1). done.
Qed.

Lemma ramp_steps_then_holds_witness :
  let s := after_passes float example_integrand (example_solver 1) example_norm
             24 (example_engine 0) in
  let s' := after_passes float example_integrand (example_solver 1) example_norm
              25 (example_engine 0) in
  let s'' := after_passes float example_integrand (example_solver 1) example_norm
               26 (example_engine 0) in
  velocity s' = (velocity s + 0.008)%float ∧ velocity s'' = velocity s'.
Proof.
  destruct (ramp_steps_then_holds float example_integrand (example_solver 1)
              example_norm 24 (example_engine 0)) as (_ & _ & Hstep & _).
  destruct (ramp_steps_then_holds float example_integrand (example_solver 1)
              example_norm 25 (example_engine 0)) as (_ & _ & _ & Hhold & _).
  split.
  - apply Hstep. vm_compute. reflexivity.
  - apply Hhold. vm_compute. reflexivity.
Defined.

(** C5 as stated fails: after 25 passes the velocity exceeds the target 0.3;
    it is then within 0.001 of the target and the next pass leaves it where
    it is, which is not the target; and the ramp leaves a velocity such as
    0.2995, within 0.001 of the target, as it is. *)
Lemma ramp_exceeds_target_without_clamp :
  let v25 := velocity (after_passes float example_integrand (example_solver 1)
                         example_norm 25 (example_engine 0)) in
  let v26 := velocity (after_passes float example_integrand (example_solver 1)
                         example_norm 26 (example_engine 0)) in
  PrimFloat.leb v25 nominal_target = false ∧
  PrimFloat.ltb (PrimFloat.abs (nominal_target - v25)) 0.001 = true ∧
  v26 = v25 ∧
  PrimFloat.eqb v26 nominal_target = false ∧
  ramp 0.2995 = 0.2995%float ∧
  PrimFloat.eqb (ramp 0.2995) nominal_target = false.
Proof. vm_compute. done. Qed.

Lemma loop_left_when_change_not_above_tolerance_witness :
  run float example_integrand (example_solver 1e10) example_norm 1
      (example_pass 9999999999 1e10) =
    Returns (example_pass 9999999999 1e10).
Proof.
  destruct (loop_left_when_change_not_above_tolerance float example_integrand
              (example_solver 1e10) example_norm 0
              (enter (example_engine 9999999999))) as (_ & _ & _ & Hleft & _).
  apply Hleft. vm_compute. reflexivity.
Defined.

(** The whole loop on the example: the first pass has a relative change of
    [1e-10] and the loop returns its state. *)
Example run_example :
  run float example_integrand (example_solver 1e10) example_norm 2
      (enter (example_engine 9999999999)) =
    Returns (example_pass 9999999999 1e10).
Proof. vm_compute. reflexivity. Qed.

(** C4 as stated fails: the loop is left although the relative change is
    not below the tolerance, with a change equal to [1e-10] (measures
    9999999999 and 1e10) and with a change that is not a number (measures 0
    and 0, or a measure after the solve that is not a number). *)
Lemma loop_left_without_change_below_tolerance :
  (convergence (example_pass 9999999999 1e10) = 1e-10%float ∧
   continues (example_pass 9999999999 1e10) = false ∧
   below_tolerance (example_pass 9999999999 1e10) = false) ∧
  (PrimFloat.is_nan (convergence (example_pass 0 0)) = true ∧
   continues (example_pass 0 0) = false ∧
   below_tolerance (example_pass 0 0) = false) ∧
  (PrimFloat.is_nan (convergence (example_pass 1 nan)) = true ∧
   continues (example_pass 1 nan) = false ∧
   below_tolerance (example_pass 1 nan) = false).
Proof. vm_compute. done. Qed.

(** * Further properties of the registry *)

Section CatalogSafety.

Variable size_bits : Z.
Variable mytypenames : list string.
Hypothesis size_t_wide : 32 <= size_bits.
Hypothesis catalog_fits_int : catalog_size mytypenames <= INT_MAX.

Local Abbreviation size := (catalog_size mytypenames).
Local Abbreviation gettypenumber_fuel := (gettypenumber_fuel size_bits mytypenames).
Local Abbreviation gettypenumber := (gettypenumber size_bits mytypenames).
Local Abbreviation gettypename := (gettypename size_bits mytypenames).

Lemma gettypename_outside (i : Z) :
  is_int i → ¬ (0 <= i < size) →
  gettypename i = Aborts (unknown_number_message i).
Proof using size_t_wide catalog_fits_int.
  intros [Hmin Hmax] Hout. unfold Registry.gettypename.
  assert (size <= to_size_t size_bits i) as Hle.
  { destruct (decide (i < 0)) as [Hneg|Hpos].
    - rewrite (to_size_t_negative size_bits size_t_wide) by lia.
      pose proof (int_range_in_size_t size_bits size_t_wide).
      unfold INT_MIN, INT_MAX in *. lia.
    - rewrite (to_size_t_nonneg size_bits size_t_wide) by lia. lia. }
  by replace (size <=? to_size_t size_bits i) with true
    by (symmetry; by apply Z.leb_le).
Qed.

Lemma gettypename_inside (i : Z) :
  0 <= i < size →
  ∃ s, mytypenames !! Z.to_nat i = Some s ∧ gettypename i = Returns s.
Proof using size_t_wide catalog_fits_int.
  intros Hi. unfold catalog_size in Hi.
  destruct (lookup_lt_is_Some_2 mytypenames (Z.to_nat i)) as [s Hs]; [lia|].
  exists s. split; [done|]. rewrite <- (Z2Nat.id i) at 1 by lia.
  by apply gettypename_in_range.
Qed.

(** X2. [gettypenumber] has no undefined behaviour and its loop ends: the
    loop counter does not overflow, no access is out of range, and with
    fuel for one loop test more than the catalog has entries the outcome is
    a return or an abort, the same for every such fuel. *)
Theorem gettypenumber_safe (fftypename : string) (fuel : nat) :
  (length mytypenames < fuel)%nat →
  gettypenumber_fuel fuel fftypename = gettypenumber fftypename ∧
  gettypenumber fftypename ≠ Undefined ∧
  gettypenumber fftypename ≠ OutOfFuel ∧
  ((∃ r, gettypenumber fftypename = Returns r) ↔ fftypename ∈ mytypenames).
Proof using size_t_wide catalog_fits_int.
  intros Hfuel.
  rewrite (gettypenumber_fuel_first_index size_bits mytypenames
             size_t_wide catalog_fits_int fftypename fuel Hfuel).
  rewrite (gettypenumber_first_index size_bits mytypenames
             size_t_wide catalog_fits_int).
  destruct (first_index fftypename mytypenames) as [r|] eqn:E.
  - split_and!; [done..|]. split; [intros _|by eexists].
    apply first_index_Some in E as [Hr _]. by eapply list_elem_of_lookup_2.
  - split_and!; [done..|]. apply first_index_None in E.
    split; [by intros [r ?]|done].
Qed.

(** X3. Two names that [gettypenumber] maps to the same number are the same
    name. *)
Theorem gettypenumber_injective (name1 name2 : string) (r : Z) :
  gettypenumber name1 = Returns r → gettypenumber name2 = Returns r →
  name1 = name2.
Proof using size_t_wide catalog_fits_int.
  rewrite !(gettypenumber_first_index size_bits mytypenames
              size_t_wide catalog_fits_int).
  destruct (first_index name1 mytypenames) as [k1|] eqn:E1; [|done].
  destruct (first_index name2 mytypenames) as [k2|] eqn:E2; [|done].
  intros [= <-] [= Hk]. apply Nat2Z.inj in Hk as ->.
  apply first_index_Some in E1 as [H1 _]. apply first_index_Some in E2 as [H2 _].
  congruence.
Qed.

(** X4. With or without repeated names: the number of the name at index
    [i] is the index [j <= i] of the first entry with that name, the name
    at [j] is again that name, and [j = i] exactly when the name does not
    occur before [i]. *)
Theorem number_of_name_is_first_occurrence (i : Z) :
  0 <= i < size →
  ∃ name j,
    gettypename i = Returns name ∧
    gettypenumber name = Returns j ∧
    0 <= j <= i ∧
    gettypename j = Returns name ∧
    (j = i ↔ ∀ k, 0 <= k < i → mytypenames !! Z.to_nat k ≠ Some name).
Proof using size_t_wide catalog_fits_int.
  intros Hi. destruct (gettypename_inside i Hi) as (name & Hname & Hget).
  pose proof (gettypenumber_first_index size_bits mytypenames
                size_t_wide catalog_fits_int name) as Hnum.
  destruct (first_index name mytypenames) as [r|] eqn:E.
  - apply first_index_Some in E as [Hr Hleast].
    assert (r ≤ Z.to_nat i)%nat as Hle.
    { destruct (decide (r ≤ Z.to_nat i)%nat) as [|Hgt]; [done|].
      destruct (Hleast (Z.to_nat i)); [lia|done]. }
    exists name, (Z.of_nat r). split_and!; [done|done|lia|lia|..].
    + by apply gettypename_in_range.
    + split.
      * intros Heq k Hk. apply Hleast. lia.
      * intros Hnone. destruct (decide (Z.of_nat r = i)) as [|Hne]; [done|].
        destruct (Hnone (Z.of_nat r)); [lia|]. by rewrite Nat2Z.id.
  - apply first_index_None in E. destruct E.
    by eapply list_elem_of_lookup_2.
Qed.

(** X5. With unique names [gettypename] maps two indices to the same name
    only when they are the same index. *)
Theorem gettypename_injective (i j : Z) (name : string) :
  NoDup mytypenames → is_int i → is_int j →
  gettypename i = Returns name → gettypename j = Returns name → i = j.
Proof using size_t_wide catalog_fits_int.
  intros Hnodup Hi Hj Hgi Hgj.
  assert (∀ k, is_int k → gettypename k = Returns name →
               0 <= k ∧ mytypenames !! Z.to_nat k = Some name) as Hin.
  { intros k Hk Hg. destruct (decide (0 <= k < size)) as [Hr|Hr].
    - destruct (gettypename_inside k Hr) as (s & Hs & Hg').
      rewrite Hg in Hg'. injection Hg' as <-. split; [lia|done].
    - by rewrite (gettypename_outside k Hk Hr) in Hg. }
  destruct (Hin i Hi Hgi) as [Hi0 Hli]. destruct (Hin j Hj Hgj) as [Hj0 Hlj].
  pose proof (NoDup_lookup _ _ _ _ Hnodup Hli Hlj). lia.
Qed.

End CatalogSafety.

(** X1. The outcome of both lookups is the same on every platform whose
    [size_t] has at least 32 bits. *)
Theorem lookups_independent_of_size_t (w1 w2 : Z) (mytypenames : list string) :
  32 <= w1 → 32 <= w2 → catalog_size mytypenames <= INT_MAX →
  (∀ name, gettypenumber w1 mytypenames name = gettypenumber w2 mytypenames name) ∧
  (∀ i, is_int i → gettypename w1 mytypenames i = gettypename w2 mytypenames i).
Proof.
  intros H1 H2 Hfit. split.
  - intros name. by rewrite !gettypenumber_first_index.
  - intros i Hi. destruct (decide (0 <= i < catalog_size mytypenames)) as [Hr|Hr].
    + destruct (gettypename_inside w1 mytypenames H1 Hfit i Hr) as (s1 & Hs1 & ->).
      destruct (gettypename_inside w2 mytypenames H2 Hfit i Hr) as (s2 & Hs2 & ->).
      congruence.
    + by rewrite !gettypename_outside.
Qed.

Lemma lookups_independent_of_size_t_witness :
  gettypenumber 32 example_catalog "one" = gettypenumber 64 example_catalog "one" ∧
  gettypename 32 example_catalog (-3) = gettypename 64 example_catalog (-3).
Proof.
  destruct (lookups_independent_of_size_t 32 64 example_catalog) as [Hn Hi].
  - lia.
  - lia.
  - vm_compute. discriminate.
  - split; [apply Hn|apply Hi]. vm_compute. split; discriminate.
Defined.

Lemma gettypenumber_safe_witness :
  gettypenumber_fuel 64 example_catalog 9 "z" = gettypenumber 64 example_catalog "z" ∧
  gettypenumber 64 example_catalog "z" ≠ Undefined.
Proof.
  destruct (gettypenumber_safe 64 example_catalog) with
    (fftypename := "z"%string) (fuel := 9%nat) as (Hfuel & Hundef & _).
  - lia.
  - vm_compute. discriminate.
  - vm_compute. lia.
  - split; [exact Hfuel|exact Hundef].
Defined.

Lemma gettypenumber_injective_witness : "x"%string = "x"%string.
Proof.
  apply (gettypenumber_injective 64 example_catalog) with (r := 3).
  - lia.
  - vm_compute. discriminate.
  - vm_compute. reflexivity.
  - vm_compute. reflexivity.
Defined.

Lemma number_of_name_is_first_occurrence_witness :
  ∃ name j,
    gettypename 64 ["h1"; "one"; "h1"]%string 2 = Returns name ∧
    gettypenumber 64 ["h1"; "one"; "h1"]%string name = Returns j ∧
    0 <= j <= 2 ∧
    gettypename 64 ["h1"; "one"; "h1"]%string j = Returns name ∧
    (j = 2 ↔ ∀ k, 0 <= k < 2 → ["h1"; "one"; "h1"]%string !! Z.to_nat k ≠ Some name).
Proof.
  apply (number_of_name_is_first_occurrence 64 ["h1"; "one"; "h1"]%string).
  - lia.
  - vm_compute. discriminate.
  - vm_compute. split; [discriminate|reflexivity].
Defined.

Lemma gettypename_injective_witness : 4 = 4.
Proof.
  apply (gettypename_injective 64 example_catalog) with (name := "y"%string).
  - lia.
  - vm_compute. discriminate.
  - exact example_catalog_NoDup.
  - vm_compute. split; discriminate.
  - vm_compute. split; discriminate.
  - vm_compute. reflexivity.
  - vm_compute. reflexivity.
Defined.

(** * Further properties of the driver *)

(** ** Signs of doubles *)

Lemma ltb_zero_positive (t : float) :
  PrimFloat.ltb 0 t = SFpositive (Prim2SF t).
Proof.
  rewrite FloatAxioms.ltb_spec. change (Prim2SF 0) with (S754_zero false).
  unfold SFltb. by destruct (Prim2SF t) as [s|s| |s m e]; cbn; try destruct s.
Qed.

Lemma ltb_zero_negative (t : float) :
  PrimFloat.ltb t 0 = SFnegative (Prim2SF t).
Proof.
  rewrite FloatAxioms.ltb_spec. change (Prim2SF 0) with (S754_zero false).
  unfold SFltb. by destruct (Prim2SF t) as [s|s| |s m e]; cbn; try destruct s.
Qed.

(** What lies above a positive double is positive. *)
Lemma above_positive_is_positive (lo p : float) :
  PrimFloat.ltb 0 lo = true → PrimFloat.ltb lo p = true →
  SFpositive (Prim2SF p) = true.
Proof.
  rewrite ltb_zero_positive, FloatAxioms.ltb_spec. unfold SFltb.
  destruct (Prim2SF lo) as [s|s| |s m e], (Prim2SF p) as [s'|s'| |s' m' e'];
    cbn; try done; try (by destruct s); try (by destruct s');
    by destruct s, s'.
Qed.

(** A zero and a value that is not a number are not above a positive
    double. *)
Lemma zero_or_nan_not_above (t r : float) :
  PrimFloat.ltb 0 t = true →
  Prim2SF r = S754_nan ∨ Prim2SF r = S754_zero false →
  PrimFloat.ltb t r = false.
Proof.
  rewrite ltb_zero_positive, FloatAxioms.ltb_spec. unfold SFltb.
  intros Ht [-> | ->]; destruct (Prim2SF t) as [s|s| |s m e]; cbn in *;
    try done; by destruct s.
Qed.

Lemma binary_round_aux_positive (s : bool) (m e : Z) (l : location) :
  SFpositive (binary_round_aux prec emax s m e l) = true → s = false.
Proof.
  unfold binary_round_aux.
  destruct (shr_fexp prec emax m e l) as [mrs' e'].
  destruct (shr_fexp prec emax _ e' loc_Exact) as [mrs'' e''].
  destruct (shr_m mrs'') as [|q|q]; cbn; [by destruct s| |done].
  destruct (e'' <=? emax - prec); cbn; by destruct s.
Qed.

Lemma SFmul_positive (x y : spec_float) :
  SFpositive (SF64mul x y) = true →
  SFpositive x = true ∧ SFpositive y = true ∨
  SFnegative x = true ∧ SFnegative y = true.
Proof.
  unfold SF64mul.
  destruct x as [sx|sx| |sx mx ex], y as [sy|sy| |sy my ey]; cbn [SFmul];
    try done; try (intros H%binary_round_aux_positive);
    try destruct sx; try destruct sy; cbn in *; try done; auto.
Qed.

Lemma SFopp_positive (x : spec_float) : SFpositive (SFopp x) = SFnegative x.
Proof. by destruct x as [s|s| |s m e]; cbn; try destruct s. Qed.

Lemma SFopp_negative (x : spec_float) : SFnegative (SFopp x) = SFpositive x.
Proof. by destruct x as [s|s| |s m e]; cbn; try destruct s. Qed.

(** The relative change of a measure that did not change is a zero, or is
    not a number. *)
Lemma relative_change_unchanged (x : float) :
  Prim2SF (relative_change x x) = S754_nan ∨
  Prim2SF (relative_change x x) = S754_zero false.
Proof.
  unfold relative_change.
  rewrite FloatAxioms.abs_spec, FloatAxioms.div_spec, FloatAxioms.sub_spec.
  destruct (Prim2SF x) as [s|s| |s m e].
  - left. by destruct s.
  - left. by destruct s.
  - by left.
  - right. unfold SF64sub, SFsub. rewrite Z.min_id. unfold shl_align.
    rewrite Z.sub_diag. by cbn.
Qed.

(** The relative change of [x] to [x] is not above [1e-10], whatever the
    double [x]. *)
Theorem unchanged_measure_not_above_tolerance (x : float) :
  PrimFloat.ltb 1e-10 (relative_change x x) = false.
Proof.
  apply zero_or_nan_not_above; [by vm_compute|apply relative_change_unchanged].
Qed.

(** X10. The relative change, hence [convergence] after a pass, is never
    negative: it is at least zero or is not a number. *)
Theorem relative_change_not_negative (before after : float) :
  PrimFloat.leb 0 (relative_change before after) = true ∨
  PrimFloat.is_nan (relative_change before after) = true.
Proof.
  unfold relative_change. rewrite is_nan_Prim2SF, FloatAxioms.leb_spec.
  rewrite FloatAxioms.abs_spec. change (Prim2SF 0) with (S754_zero false).
  destruct (Prim2SF ((after - before) / after)) as [s|s| |s m e]; cbn; auto.
Qed.

(** X11. The validation line writes 1 only for a velocity norm and an
    outlet integral that are numbers other than zero and of opposite signs
    (so that [vnorm] and [flowrateout] have the same sign). *)
Theorem validation_needs_opposite_signs (vnorm outflux : float) :
  validation vnorm outflux = true →
  PrimFloat.ltb 0 vnorm = true ∧ PrimFloat.ltb outflux 0 = true ∨
  PrimFloat.ltb vnorm 0 = true ∧ PrimFloat.ltb 0 outflux = true.
Proof.
  unfold validation. intros [_ Hlo]%andb_prop.
  apply above_positive_is_positive in Hlo; [|by vm_compute].
  rewrite FloatAxioms.mul_spec, FloatAxioms.opp_spec in Hlo.
  apply SFmul_positive in Hlo.
  rewrite SFopp_positive, SFopp_negative in Hlo.
  by rewrite !ltb_zero_positive, !ltb_zero_negative.
Qed.

Lemma validation_needs_opposite_signs_witness :
  PrimFloat.ltb 0 1 = true ∧ PrimFloat.ltb (-2.64487e-05) 0 = true ∨
  PrimFloat.ltb 1 0 = true ∧ PrimFloat.ltb 0 (-2.64487e-05) = true.
Proof.
  apply (validation_needs_opposite_signs 1 (-2.64487e-05)).
  vm_compute. reflexivity.
Defined.

(** ** The loop as a whole *)

Lemma ramp_below_target (n : nat) :
  (n < 25)%nat →
  PrimFloat.ltb (Nat.iter n ramp 0.1%float) velocity_target = true.
Proof.
  intros Hn. do 25 (destruct n as [|n]; [vm_compute; done|]). lia.
Qed.

Section LoopFacts.

Variable coefficients : Type.
Variable predefinedlaminarflow : float → float → fields coefficients → Z → contribution.
Variable linear_solve : linear_system → fields coefficients → coefficients.
Variable integrate_norm_v : gset Z → Z → coefficients → float.

Local Abbreviation laminarflow := (laminarflow coefficients predefinedlaminarflow).
Local Abbreviation solve := (solve coefficients linear_solve).
Local Abbreviation measure := (measure coefficients integrate_norm_v).
Local Abbreviation body :=
  (body coefficients predefinedlaminarflow linear_solve integrate_norm_v).
Local Abbreviation run :=
  (run coefficients predefinedlaminarflow linear_solve integrate_norm_v).
Local Abbreviation after_passes :=
  (after_passes coefficients predefinedlaminarflow linear_solve integrate_norm_v).

Implicit Types (e : engine coefficients) (s : loop_state coefficients).

Lemma index_after_iter (n : nat) s :
  index (Nat.iter n body s) = index s + Z.of_nat n.
Proof.
  induction n as [|n IH]; [cbn; lia|].
  rewrite Nat.iter_succ. unfold Driver.body at 1. cbn [index]. lia.
Qed.

(** A state the loop returns is the state of the first pass at which the
    test fails. *)
Lemma run_returns (fuel : nat) s s' :
  run fuel s = Returns s' →
  ∃ n, (n < fuel)%nat ∧ s' = Nat.iter n body s ∧ continues s' = false ∧
       ∀ k, (k < n)%nat → continues (Nat.iter k body s) = true.
Proof.
  revert s. induction fuel as [|fuel IH]; intros s; [done|].
  cbn [Driver.run]. destruct (continues s) eqn:Hc.
  - destruct (index s <? INT_MAX); [|done].
    intros (n & Hn & -> & Hstop & Hgo)%IH. exists (S n).
    rewrite Nat.iter_succ_r. split_and!; [lia|done|done|].
    intros [|k] Hk; [done|]. rewrite Nat.iter_succ_r. apply Hgo. lia.
  - intros [= <-]. exists 0%nat. split_and!; [lia|done|done|]. intros k Hk. lia.
Qed.


(** X6. Whenever the loop returns, it has made at least one pass and
    returns the state of the first pass whose relative change is not above
    [1e-10]; [index] is then the number of passes made. *)
Theorem run_returns_first_stopping_pass (fuel : nat) e s :
  run fuel (enter e) = Returns s →
  ∃ n, (1 ≤ n < fuel)%nat ∧
       s = after_passes n e ∧
       index s = Z.of_nat n ∧
       continues s = false ∧
       ∀ k, (k < n)%nat → continues (after_passes k e) = true.
Proof.
  intros (n & Hn & -> & Hstop & Hgo)%run_returns. exists n.
  split_and!; [|lia|done|by rewrite index_after_iter|done|done].
  destruct n as [|n]; [|lia]. by vm_compute in Hstop.
Qed.


(** X9. The loop does not wait for the ramp: a state returned after fewer
    than 25 passes has an inlet velocity under the threshold 0.299 and
    under the target, and one returned after 25 passes or more has the
    target velocity. *)
Theorem run_may_return_before_ramp_ends (fuel : nat) e s :
  run fuel (enter e) = Returns s →
  (index s < 25 →
   PrimFloat.ltb (velocity s) 0.299 = true ∧
   PrimFloat.ltb (velocity s) velocity_target = true) ∧
  (25 <= index s → velocity s = velocity_target).
Proof.
  intros (n & Hn & -> & _)%run_returns.
  rewrite index_after_iter. cbn [index enter].
  change (Nat.iter n body (enter e)) with (after_passes n e).
  rewrite velocity_after_passes. split.
  - intros Hlt. split; [apply ramp_rises|apply ramp_below_target]; lia.
  - intros Hge. apply ramp_rests. lia.
Qed.

(** X8. A measure that the solve leaves unchanged, whatever its value, ends
    the loop: when the measure after the solve is the measure before it,
    the test fails and the pass is the last one. *)
Theorem unchanged_measure_ends_loop (fuel : nat) s :
  let e1 := set_inlet_velocity (ramp (velocity s)) (lib s) in
  measure (solve laminarflow e1) = measure e1 →
  continues (body s) = false ∧ run (S fuel) (body s) = Returns (body s).
Proof.
  cbn zeta. intros Hsame.
  assert (continues (body s) = false) as Hstop.
  { unfold continues, Driver.body. cbn [convergence]. rewrite Hsame.
    apply zero_or_nan_not_above; [by vm_compute|apply relative_change_unchanged]. }
  split; [done|]. cbn [Driver.run]. by rewrite Hstop.
Qed.

End LoopFacts.

Lemma run_returns_first_stopping_pass_witness :
  ∃ n, (1 ≤ n < 2)%nat ∧
       example_pass 9999999999 1e10 =
         after_passes float example_integrand (example_solver 1e10) example_norm
                      n (example_engine 9999999999) ∧
       index (example_pass 9999999999 1e10) = Z.of_nat n ∧
       continues (example_pass 9999999999 1e10) = false ∧
       ∀ k, (k < n)%nat →
            continues (after_passes float example_integrand (example_solver 1e10)
                         example_norm k (example_engine 9999999999)) = true.
Proof.
  apply (run_returns_first_stopping_pass float example_integrand
           (example_solver 1e10) example_norm 2 (example_engine 9999999999)).
  vm_compute. reflexivity.
Defined.


Lemma run_may_return_before_ramp_ends_witness :
  PrimFloat.ltb (velocity (example_pass 9999999999 1e10)) 0.299 = true ∧
  PrimFloat.ltb (velocity (example_pass 9999999999 1e10)) velocity_target = true.
Proof.
  destruct (run_may_return_before_ramp_ends float example_integrand
              (example_solver 1e10) example_norm 2 (example_engine 9999999999)
              (example_pass 9999999999 1e10)) as [Hearly _].
  - vm_compute. reflexivity.
  - apply Hearly. vm_compute. reflexivity.
Defined.

Lemma unchanged_measure_ends_loop_witness :
  continues (example_pass 5 5) = false ∧
  run float example_integrand (example_solver 5) example_norm 1 (example_pass 5 5) =
    Returns (example_pass 5 5).
Proof.
  apply (unchanged_measure_ends_loop float example_integrand (example_solver 5)
           example_norm 0 (enter (example_engine 5))).
  vm_compute. reflexivity.
Defined.

(** X12. Once the ramp rests, the inlet velocity is not the double [0.3]:
    the 25 additions of [0.008] leave it strictly above [0.3], by less than
    [2e-16]. *)
Theorem rest_velocity_just_above_0_3 (coefficients : Type)
    (predefinedlaminarflow : float → float → fields coefficients → Z → contribution)
    (linear_solve : linear_system → fields coefficients → coefficients)
    (integrate_norm_v : gset Z → Z → coefficients → float)
    (n : nat) (e : engine coefficients) :
  (25 ≤ n)%nat →
  let v := velocity (after_passes coefficients predefinedlaminarflow linear_solve
                       integrate_norm_v n e) in
  PrimFloat.ltb 0.3 v = true ∧ PrimFloat.ltb (v - 0.3) 2e-16 = true.
Proof.
  intros Hn. cbn zeta. rewrite velocity_after_passes, ramp_rests by done.
  by vm_compute.
Qed.

Lemma rest_velocity_just_above_0_3_witness :
  PrimFloat.ltb 0.3
    (velocity (after_passes float example_integrand (example_solver 1)
                 example_norm 30 (example_engine 0))) = true.
Proof.
  destruct (rest_velocity_just_above_0_3 float example_integrand
              (example_solver 1) example_norm 30 (example_engine 0)) as [H _].
  - lia.
  - exact H.
Defined.
